(** * libtiled/tile.h: terrain corner packing and the Tile value object

    A shallow embedding of [src/libtiled/tile.h].  The C++ [int] and
    [unsigned] values are integers of [Z] with the 32-bit wrap-around
    written out; the bit operators are those of [Z] (two's complement
    on negative numbers, as on the machine). *)

From Stdlib Require Import ZArith List Bool Lia.
Import ListNotations.

#[local] Open Scope Z_scope.

(** ** 32-bit machine integers *)

Module Int32.

(** Conversion of any integer to [unsigned]: reduction modulo 2^32. *)
Definition to_unsigned (z : Z) : Z := z mod 2 ^ 32.

(** The value an [int] expression keeps of the mathematical result [z]:
    the representative of [z] modulo 2^32 in [-2^31, 2^31). *)
Definition to_int (z : Z) : Z := (z + 2 ^ 31) mod 2 ^ 32 - 2 ^ 31.

(** [a << n] and [a >> n] are defined for a count [0 <= n < 32] only. *)
Definition shift_defined (n : Z) : bool := (0 <=? n) && (n <? 32).

(** [a << n] on [int]: the low 32 bits of [a * 2^n] read as an [int],
    for negative [a] as well (two's complement, the result C++20
    defines and the compilers of the earlier standards produce). *)
Definition shl_int (a n : Z) : Z := to_int (Z.shiftl a n).

(** [a >> n] on [unsigned]: a logical shift. *)
Definition shr_unsigned (a n : Z) : Z := Z.shiftr a n.

(** [~a] on [unsigned]. *)
Definition not_unsigned (a : Z) : Z := to_unsigned (Z.lnot a).

End Int32.

Import Int32.

(** ** Terrain helpers (free functions of namespace Tiled) *)

(** [makeTerrain(int id)]: the same terrain id on all four corners. *)
Definition makeTerrain1 (id : Z) : Z :=
  let id := Z.land id 255 in
  to_unsigned
    (Z.lor (Z.lor (Z.lor (shl_int id 24) (shl_int id 16)) (shl_int id 8)) id).

(** [makeTerrain(int topLeft, int topRight, int bottomLeft, int bottomRight)]. *)
Definition makeTerrain (topLeft topRight bottomLeft bottomRight : Z) : Z :=
  to_unsigned
    (Z.lor (Z.lor (Z.lor (shl_int (Z.land topLeft 255) 24)
                         (shl_int (Z.land topRight 255) 16))
                  (shl_int (Z.land bottomLeft 255) 8))
           (Z.land bottomRight 255)).

(** [setTerrainCorner(unsigned terrain, int corner, int terrainId)].
    The shift count [(3 - corner) * 8] is outside [0, 32) when [corner] is
    not one of 0..3; the source has no defined result there, which is
    [None] here. *)
Definition setTerrainCorner (terrain corner terrainId : Z) : option Z :=
  let count := (3 - corner) * 8 in
  if shift_defined count then
    let mask := to_unsigned (shl_int 255 count) in
    let insert := to_unsigned (shl_int terrainId count) in
    Some (Z.lor (Z.land terrain (not_unsigned mask)) (Z.land insert mask))
  else None.

(** [struct Frame]. *)
Record Frame : Type := mkFrame { tileId : Z; duration : Z }.

(** [Frame::operator==]. *)
Definition Frame_eqb (a b : Frame) : bool :=
  (tileId a =? tileId b) && (duration a =? duration b).

(** ** The types tile.h takes from other headers *)

(** Modelled from the spec: [enum LoadingStatus] is declared in tiled.h;
    tile.h names its values [LoadingReady] and [LoadingError], and the
    design document lists the load status as not-loaded / ready /
    error. *)
Inductive LoadingStatus : Type :=
  | LoadingPending
  | LoadingReady
  | LoadingError.

(** [QPixmap] (Qt), as far as tile.h looks at it: [isNull()], [width()],
    [height()]. *)
Record QPixmap : Type := mkPixmap {
  isNull : bool;
  pixmapWidth : Z;
  pixmapHeight : Z
}.

(** ** class Tile *)

(** The private members of [Tile].  [mTileset], [mImageSource], [mType],
    [mProbability] and [mObjectGroup] are read by no operation modelled
    below and are left out. *)
Record Tile : Type := mkTile {
  mId : Z;
  mImage : QPixmap;
  mImageStatus : LoadingStatus;
  mTerrain : Z;
  mFrames : list Frame;
  mCurrentFrameIndex : Z;
  mUnusedTime : Z
}.

Definition image (self : Tile) : QPixmap := mImage self.

(** [Tile::setImage]. *)
Definition setImage (self : Tile) (image : QPixmap) : Tile :=
  {| mId := mId self;
     mImage := image;
     mImageStatus := if isNull image then LoadingError else LoadingReady;
     mTerrain := mTerrain self;
     mFrames := mFrames self;
     mCurrentFrameIndex := mCurrentFrameIndex self;
     mUnusedTime := mUnusedTime self |}.

Definition width (self : Tile) : Z := pixmapWidth (mImage self).

Definition height (self : Tile) : Z := pixmapHeight (mImage self).

(** [Tile::terrain]. *)
Definition terrain (self : Tile) : Z := mTerrain self.

(** [Tile::cornerTerrainId]; as in [setTerrainCorner], no result for a
    shift count outside [0, 32). *)
Definition cornerTerrainId (self : Tile) (corner : Z) : option Z :=
  let count := (3 - corner) * 8 in
  if shift_defined count then
    let t := Z.land (shr_unsigned (terrain self) count) 255 in
    Some (if t =? 255 then -1 else t)
  else None.

(** [Tile::setCornerTerrainId].  [Tile::setTerrain] is declared in tile.h
    and defined in tile.cpp, so it is an argument here. *)
Definition setCornerTerrainId (setTerrain : Tile -> Z -> Tile)
    (self : Tile) (corner terrainId : Z) : option Tile :=
  match setTerrainCorner (mTerrain self) corner terrainId with
  | Some terrain' => Some (setTerrain self terrain')
  | None => None
  end.

(** The plain setter, one possible [setTerrain]: it stores the word. *)
Definition storeTerrain (self : Tile) (terrain : Z) : Tile :=
  {| mId := mId self;
     mImage := mImage self;
     mImageStatus := mImageStatus self;
     mTerrain := terrain;
     mFrames := mFrames self;
     mCurrentFrameIndex := mCurrentFrameIndex self;
     mUnusedTime := mUnusedTime self |}.

Definition frames (self : Tile) : list Frame := mFrames self.

(** [Tile::isAnimated]: [!mFrames.isEmpty()]. *)
Definition isEmpty {A : Type} (v : list A) : bool :=
  match v with [] => true | _ :: _ => false end.

Definition isAnimated (self : Tile) : bool := negb (isEmpty (mFrames self)).

Definition currentFrameIndex (self : Tile) : Z := mCurrentFrameIndex self.

Definition imageStatus (self : Tile) : LoadingStatus := mImageStatus self.

Definition setImageStatus (self : Tile) (status : LoadingStatus) : Tile :=
  {| mId := mId self;
     mImage := mImage self;
     mImageStatus := status;
     mTerrain := mTerrain self;
     mFrames := mFrames self;
     mCurrentFrameIndex := mCurrentFrameIndex self;
     mUnusedTime := mUnusedTime self |}.

(** ** Animation state (tile.cpp)

    tile.h only declares [setFrames], [resetAnimation] and
    [advanceAnimation]; their bodies are in tile.cpp.  The definitions of
    this part follow section 4.2 of the design document, which describes
    resetting and advancing; it says nothing of what [setFrames] does to
    the animation state, and [setFrames] is not modelled. *)

(** [mFrames.at(index)], with no frame outside the sequence. *)
Definition frameAt (frames : list Frame) (index : Z) : option Frame :=
  if index <? 0 then None else nth_error frames (Z.to_nat index).

(** The tile id on display: the one the current frame names; none when
    there is no current frame. *)
Definition visibleTileId (self : Tile) : option Z :=
  match frameAt (mFrames self) (mCurrentFrameIndex self) with
  | Some frame => Some (tileId frame)
  | None => None
  end.

Definition sameTileId (a b : option Z) : bool :=
  match a, b with
  | Some x, Some y => x =? y
  | None, None => true
  | _, _ => false
  end.

Definition withAnimationState (self : Tile) (index unused : Z) : Tile :=
  {| mId := mId self;
     mImage := mImage self;
     mImageStatus := mImageStatus self;
     mTerrain := mTerrain self;
     mFrames := mFrames self;
     mCurrentFrameIndex := index;
     mUnusedTime := unused |}.

(** Modelled from the spec: [Tile::resetAnimation] (body in tile.cpp).
    "Resetting returns to the first frame with zero elapsed time", and
    the operation "reports whether the visible frame changed". *)
Definition resetAnimation (self : Tile) : bool * Tile :=
  let self' := withAnimationState self 0 0 in
  (negb (sameTileId (visibleTileId self) (visibleTileId self')), self').

(** The frames an elapsed time [unused] runs through, from frame [index]:
    while the time exceeds the duration of the current frame, that
    duration is taken off it and the next frame becomes current, the
    first one following the last.  A frame whose duration is not
    positive never runs out (the infinite-duration equivalent).  Each
    frame left behind takes at least one unit off [unused], which bounds
    the iterations; [fuel] counts them. *)
Fixpoint advanceFrames (fuel : nat) (frames : list Frame)
    (index unused : Z) : Z * Z :=
  match fuel with
  | O => (index, unused)
  | S fuel' =>
      match frameAt frames index with
      | Some frame =>
          if (0 <? duration frame) && (duration frame <? unused) then
            advanceFrames fuel' frames
              ((index + 1) mod Z.of_nat (length frames))
              (unused - duration frame)
          else (index, unused)
      | None => (index, unused)
      end
  end.

(** Modelled from the spec: [Tile::advanceAnimation] (body in tile.cpp).
    "Advancing time by an elapsed amount moves forward through frames
    (wrapping at sequence end) proportionally to each frame's duration";
    the operation "reports whether the visible frame changed".  A tile
    without frames has no animation state to advance. *)
Definition advanceAnimation (self : Tile) (ms : Z) : bool * Tile :=
  if isAnimated self then
    let unused := mUnusedTime self + ms in
    let '(index', unused') :=
      advanceFrames (Z.to_nat unused) (mFrames self)
        (mCurrentFrameIndex self) unused in
    let self' := withAnimationState self index' unused' in
    (negb (sameTileId (visibleTileId self) (visibleTileId self')), self')
  else (false, self).

(** The operations on the animation state that the design document
    describes, and runs of them. *)
Inductive AnimationOp : Type :=
  | OpResetAnimation
  | OpAdvanceAnimation (ms : Z).

Definition applyOp (self : Tile) (op : AnimationOp) : Tile :=
  match op with
  | OpResetAnimation => snd (resetAnimation self)
  | OpAdvanceAnimation ms => snd (advanceAnimation self ms)
  end.

Definition applyOps (self : Tile) (ops : list AnimationOp) : Tile :=
  fold_left applyOp ops self.

(** ** Notions the statements are written with *)

(** The packed byte of corner [corner] in a terrain word: corner 0 is
    the most significant byte. *)
Definition cornerByte (terrain corner : Z) : Z :=
  (terrain / 2 ^ ((3 - corner) * 8)) mod 256.

(** The word [setTerrainCorner] builds for the shift count [n]. *)
Definition cornerWritten (terrain terrainId n : Z) : Z :=
  let mask := to_unsigned (shl_int 255 n) in
  let insert := to_unsigned (shl_int terrainId n) in
  Z.lor (Z.land terrain (not_unsigned mask)) (Z.land insert mask).

(** The current frame index is an index into the frame sequence. *)
Definition validFrameIndex (self : Tile) : Prop :=
  0 <= mCurrentFrameIndex self < Z.of_nat (length (mFrames self)).

(** The frame after [index]: the following one, and the first frame
    after the last. *)
Definition nextIndex (frames : list Frame) (index : Z) : Z :=
  if index + 1 <? Z.of_nat (length frames) then index + 1 else 0.

(** One frame running out: the elapsed time exceeds the (positive)
    duration of the current frame, the duration is consumed and the next
    frame becomes current. *)
Inductive frameElapses (frames : list Frame) : Z * Z -> Z * Z -> Prop :=
  | frame_elapses index unused frame :
      frameAt frames index = Some frame ->
      0 < duration frame ->
      duration frame < unused ->
      frameElapses frames (index, unused)
        (nextIndex frames index, unused - duration frame).

(** Any number of frames running out, one after the other. *)
Inductive framesElapse (frames : list Frame) : Z * Z -> Z * Z -> Prop :=
  | elapse_none s : framesElapse frames s s
  | elapse_more s1 s2 s3 :
      frameElapses frames s1 s2 ->
      framesElapse frames s2 s3 ->
      framesElapse frames s1 s3.

(** A tile used to instantiate the statements below. *)
Definition sampleFrames : list Frame :=
  [mkFrame 7 100; mkFrame 8 50; mkFrame 9 200].

Definition sampleTile : Tile :=
  {| mId := 7;
     mImage := mkPixmap false 32 32;
     mImageStatus := LoadingReady;
     mTerrain := 4294967295;
     mFrames := sampleFrames;
     mCurrentFrameIndex := 1;
     mUnusedTime := 20 |}.

(** The same tile with a single frame of duration 0. *)
Definition stillTile : Tile :=
  {| mId := 7;
     mImage := mkPixmap false 32 32;
     mImageStatus := LoadingReady;
     mTerrain := 4294967295;
     mFrames := [mkFrame 3 0];
     mCurrentFrameIndex := 0;
     mUnusedTime := 0 |}.

(** * Properties *)

(** ** Bits of the 32-bit conversions *)

Lemma to_unsigned_to_int z : to_unsigned (to_int z) = to_unsigned z.
Proof.
  unfold to_unsigned, to_int.
  rewrite Zminus_mod_idemp_l.
  f_equal. lia.
Qed.

Lemma to_unsigned_range z : 0 <= to_unsigned z < 2 ^ 32.
Proof. unfold to_unsigned. apply Z.mod_pos_bound. lia. Qed.

Lemma to_int_range z : - 2 ^ 31 <= to_int z < 2 ^ 31.
Proof.
  unfold to_int.
  pose proof (Z.mod_pos_bound (z + 2 ^ 31) (2 ^ 32) ltac:(lia)). lia.
Qed.

Lemma testbit_to_unsigned z i :
  Z.testbit (to_unsigned z) i = (i <? 32) && Z.testbit z i.
Proof. unfold to_unsigned. apply Z.testbit_mod_pow2. lia. Qed.

Lemma testbit_to_int z i :
  i < 32 -> Z.testbit (to_int z) i = Z.testbit z i.
Proof.
  intros Hi.
  assert (H : Z.testbit (to_unsigned (to_int z)) i = Z.testbit (to_unsigned z) i)
    by (now rewrite to_unsigned_to_int).
  rewrite !testbit_to_unsigned in H.
  destruct (Z.ltb_spec i 32); [exact H | lia].
Qed.

Lemma testbit_255 i : Z.testbit 255 i = (0 <=? i) && (i <? 8).
Proof. change 255 with (Z.ones 8). apply Z.testbit_ones. lia. Qed.

Lemma land_255 z : Z.land z 255 = z mod 256.
Proof. change 255 with (Z.ones 8). now rewrite Z.land_ones by lia. Qed.

Lemma testbit_byte z i :
  Z.testbit (Z.land z 255) i = Z.testbit z i && ((0 <=? i) && (i <? 8)).
Proof. now rewrite Z.land_spec, testbit_255. Qed.

(** The comparisons a bit-by-bit goal is left with, decided one by one. *)
Ltac split_comparisons :=
  repeat match goal with
    | |- context [?a <? ?b] => destruct (Z.ltb_spec a b)
    | |- context [?a <=? ?b] => destruct (Z.leb_spec a b)
    end;
  cbn [andb orb negb];
  rewrite ?andb_true_r, ?andb_false_r, ?orb_false_r, ?orb_true_r;
  try reflexivity; try lia.

(** ** The byte of a shifted word *)

Lemma byte_shiftr_div z n :
  0 <= n -> Z.land (Z.shiftr z n) 255 = (z / 2 ^ n) mod 256.
Proof. intros Hn. now rewrite land_255, Z.shiftr_div_pow2. Qed.

Lemma testbit_cornerWritten terrain terrainId n i :
  0 <= n -> 0 <= i ->
  Z.testbit (cornerWritten terrain terrainId n) i =
    if (n <=? i) && (i <? n + 8) && (i <? 32)
    then Z.testbit terrainId (i - n)
    else (i <? 32) && Z.testbit terrain i.
Proof.
  intros Hn Hi.
  unfold cornerWritten, not_unsigned, shl_int.
  rewrite !to_unsigned_to_int.
  rewrite Z.lor_spec, !Z.land_spec, !testbit_to_unsigned.
  rewrite Z.lnot_spec, testbit_to_unsigned, !Z.shiftl_spec, testbit_255 by lia.
  split_comparisons; destruct (Z.testbit terrain i); reflexivity.
Qed.

Lemma byte_eq_of_bits a b m :
  0 <= m ->
  (forall j, 0 <= j < 8 -> Z.testbit a (j + m) = Z.testbit b j) ->
  Z.land (Z.shiftr a m) 255 = Z.land b 255.
Proof.
  intros Hm H.
  apply Z.bits_inj'; intros j Hj.
  rewrite !testbit_byte, Z.shiftr_spec by lia.
  destruct (Z.ltb_spec j 8) as [Hlt | Hge].
  - rewrite H by lia. reflexivity.
  - now rewrite !andb_false_r.
Qed.

Lemma byte_cornerWritten_same terrain terrainId n :
  0 <= n <= 24 ->
  Z.land (Z.shiftr (cornerWritten terrain terrainId n) n) 255
  = Z.land terrainId 255.
Proof.
  intros Hn.
  apply byte_eq_of_bits; [lia |]. intros j Hj.
  rewrite testbit_cornerWritten by lia.
  replace (j + n - n) with j by lia.
  split_comparisons.
Qed.

Lemma byte_cornerWritten_other terrain terrainId n m :
  0 <= n -> 0 <= m <= 24 -> m + 8 <= n \/ n + 8 <= m ->
  Z.land (Z.shiftr (cornerWritten terrain terrainId n) m) 255
  = Z.land (Z.shiftr terrain m) 255.
Proof.
  intros Hn Hm Hfar.
  apply byte_eq_of_bits; [lia |]. intros j Hj.
  rewrite testbit_cornerWritten, Z.shiftr_spec by lia.
  split_comparisons.
Qed.

(** ** The four bytes of [makeTerrain] *)

Lemma testbit_makeTerrain topLeft topRight bottomLeft bottomRight i :
  0 <= i ->
  Z.testbit (makeTerrain topLeft topRight bottomLeft bottomRight) i =
    if i <? 8 then Z.testbit bottomRight i
    else if i <? 16 then Z.testbit bottomLeft (i - 8)
    else if i <? 24 then Z.testbit topRight (i - 16)
    else if i <? 32 then Z.testbit topLeft (i - 24)
    else false.
Proof.
  intros Hi. unfold makeTerrain, shl_int.
  rewrite testbit_to_unsigned.
  destruct (Z.ltb_spec i 32) as [Hlt | Hge].
  - rewrite !Z.lor_spec, !testbit_to_int, !Z.shiftl_spec, !testbit_byte by lia.
    split_comparisons.
  - split_comparisons.
Qed.

Lemma makeTerrain_unwrapped topLeft topRight bottomLeft bottomRight :
  makeTerrain topLeft topRight bottomLeft bottomRight =
    Z.lor (Z.lor (Z.lor (Z.shiftl (Z.land topLeft 255) 24)
                        (Z.shiftl (Z.land topRight 255) 16))
                 (Z.shiftl (Z.land bottomLeft 255) 8))
          (Z.land bottomRight 255).
Proof.
  apply Z.bits_inj'; intros i Hi.
  rewrite testbit_makeTerrain by lia.
  rewrite !Z.lor_spec, !Z.shiftl_spec, !testbit_byte by lia.
  split_comparisons.
Qed.

Lemma makeTerrain_byte topLeft topRight bottomLeft bottomRight m v :
  0 <= m ->
  (forall j, 0 <= j < 8 ->
     Z.testbit (makeTerrain topLeft topRight bottomLeft bottomRight) (j + m)
     = Z.testbit v j) ->
  (makeTerrain topLeft topRight bottomLeft bottomRight / 2 ^ m) mod 256
  = v mod 256.
Proof.
  intros Hm H.
  rewrite <- byte_shiftr_div, <- land_255 by lia.
  now apply byte_eq_of_bits.
Qed.

Lemma cornerByte_makeTerrain topLeft topRight bottomLeft bottomRight :
  let w := makeTerrain topLeft topRight bottomLeft bottomRight in
  cornerByte w 0 = topLeft mod 256 /\
  cornerByte w 1 = topRight mod 256 /\
  cornerByte w 2 = bottomLeft mod 256 /\
  cornerByte w 3 = bottomRight mod 256.
Proof.
  unfold cornerByte; cbn [Z.sub Z.mul Z.opp Z.add Z.pos_sub Pos.mul
                          Pos.pred_double Z.succ_double Z.pred_double Z.double].
  repeat split; apply makeTerrain_byte; try lia; intros j Hj;
    rewrite testbit_makeTerrain by lia; split_comparisons;
    f_equal; lia.
Qed.

(** ** Decoding a corner *)

Lemma shift_defined_corner corner :
  0 <= corner <= 3 -> shift_defined ((3 - corner) * 8) = true.
Proof. intros H. unfold shift_defined. split_comparisons. Qed.

Lemma cornerTerrainId_byte self corner :
  0 <= corner <= 3 ->
  cornerTerrainId self corner =
    Some (if cornerByte (terrain self) corner =? 255 then -1
          else cornerByte (terrain self) corner).
Proof.
  intros Hc. unfold cornerTerrainId, cornerByte, shr_unsigned.
  rewrite shift_defined_corner by assumption.
  rewrite byte_shiftr_div by lia. reflexivity.
Qed.

Lemma cornerByte_range terrain corner : 0 <= cornerByte terrain corner <= 255.
Proof.
  unfold cornerByte.
  pose proof (Z.mod_pos_bound (terrain / 2 ^ ((3 - corner) * 8)) 256 ltac:(lia)).
  lia.
Qed.

Lemma setTerrainCorner_defined terrain corner terrainId :
  0 <= corner <= 3 ->
  setTerrainCorner terrain corner terrainId
  = Some (cornerWritten terrain terrainId ((3 - corner) * 8)).
Proof.
  intros Hc. unfold setTerrainCorner.
  now rewrite shift_defined_corner by assumption.
Qed.

Lemma cornerByte_cornerWritten_same terrain terrainId corner :
  0 <= corner <= 3 ->
  cornerByte (cornerWritten terrain terrainId ((3 - corner) * 8)) corner
  = terrainId mod 256.
Proof.
  intros Hc. unfold cornerByte.
  rewrite <- byte_shiftr_div, <- land_255 by lia.
  apply byte_cornerWritten_same. lia.
Qed.

Lemma cornerByte_cornerWritten_other terrain terrainId corner corner' :
  0 <= corner <= 3 -> 0 <= corner' <= 3 -> corner' <> corner ->
  cornerByte (cornerWritten terrain terrainId ((3 - corner) * 8)) corner'
  = cornerByte terrain corner'.
Proof.
  intros Hc Hc' Hne. unfold cornerByte.
  rewrite <- !byte_shiftr_div by lia.
  apply byte_cornerWritten_other; lia.
Qed.

(** ** Frames and the frame loop *)

Lemma frameAt_in_range frames index frame :
  frameAt frames index = Some frame ->
  0 <= index < Z.of_nat (length frames).
Proof.
  unfold frameAt. destruct (Z.ltb_spec index 0) as [Hneg | Hpos]; [discriminate |].
  intros H.
  assert (Hsome : nth_error frames (Z.to_nat index) <> None) by congruence.
  apply nth_error_Some in Hsome. lia.
Qed.

Lemma next_index_in_range (frames : list Frame) index :
  0 <= index < Z.of_nat (length frames) ->
  0 <= (index + 1) mod Z.of_nat (length frames) < Z.of_nat (length frames).
Proof. intros H. apply Z.mod_pos_bound. lia. Qed.

Lemma next_index_wraps (frames : list Frame) index :
  0 <= index < Z.of_nat (length frames) ->
  (index + 1) mod Z.of_nat (length frames) = nextIndex frames index.
Proof.
  intros H. unfold nextIndex.
  destruct (Z.ltb_spec (index + 1) (Z.of_nat (length frames))) as [Hlt | Hge].
  - apply Z.mod_small. lia.
  - replace (index + 1) with (Z.of_nat (length frames)) by lia.
    apply Z.mod_same. lia.
Qed.

Lemma advanceFrames_elapse fuel : forall frames index unused,
  framesElapse frames (index, unused) (advanceFrames fuel frames index unused).
Proof.
  induction fuel as [| fuel IH]; intros frames index unused; cbn [advanceFrames].
  - constructor.
  - destruct (frameAt frames index) as [frame |] eqn:Hat; [| constructor].
    destruct (Z.ltb_spec 0 (duration frame)) as [Hpos | Hnonpos];
      cbn [andb]; [| constructor].
    destruct (Z.ltb_spec (duration frame) unused) as [Hlt | Hge]; [| constructor].
    eapply elapse_more; [| apply IH].
    rewrite next_index_wraps by (eapply frameAt_in_range; eassumption).
    now apply frame_elapses.
Qed.

Lemma advanceFrames_exhaustive fuel : forall frames index unused,
  (Z.to_nat unused <= fuel)%nat ->
  forall s, ~ frameElapses frames (advanceFrames fuel frames index unused) s.
Proof.
  induction fuel as [| fuel IH]; intros frames index unused Hfuel s;
    cbn [advanceFrames].
  - intros Hstep. inversion Hstep; subst. lia.
  - destruct (frameAt frames index) as [frame |] eqn:Hat.
    + destruct (Z.ltb_spec 0 (duration frame)) as [Hpos | Hnonpos]; cbn [andb].
      * destruct (Z.ltb_spec (duration frame) unused) as [Hlt | Hge].
        -- apply IH. lia.
        -- intros Hstep. inversion Hstep; subst.
           assert (frame0 = frame) by congruence. subst. lia.
      * intros Hstep. inversion Hstep; subst.
        assert (frame0 = frame) by congruence. subst. lia.
    + intros Hstep. inversion Hstep; subst. congruence.
Qed.

Lemma advanceFrames_index fuel : forall frames index unused,
  0 <= index < Z.of_nat (length frames) ->
  0 <= fst (advanceFrames fuel frames index unused) < Z.of_nat (length frames).
Proof.
  induction fuel as [| fuel IH]; intros frames index unused Hidx;
    cbn [advanceFrames]; [exact Hidx |].
  destruct (frameAt frames index) as [frame |]; [| exact Hidx].
  destruct ((0 <? duration frame) && (duration frame <? unused)); [| exact Hidx].
  apply IH. now apply next_index_in_range.
Qed.

Lemma advanceFrames_endless fuel frames index unused frame :
  frameAt frames index = Some frame -> duration frame <= 0 ->
  advanceFrames fuel frames index unused = (index, unused).
Proof.
  intros Hat Hdur. destruct fuel as [| fuel]; cbn [advanceFrames]; [reflexivity |].
  rewrite Hat. destruct (Z.ltb_spec 0 (duration frame)); [lia | reflexivity].
Qed.

Lemma sameTileId_true a b : sameTileId a b = true <-> a = b.
Proof.
  destruct a as [x |], b as [y |]; cbn; try (split; congruence).
  rewrite Z.eqb_eq. split; congruence.
Qed.

Lemma changed_iff a b : negb (sameTileId a b) = true <-> b <> a.
Proof.
  rewrite negb_true_iff, <- not_true_iff_false, sameTileId_true.
  split; congruence.
Qed.

Lemma isAnimated_frames self :
  isAnimated self = true <-> mFrames self <> [].
Proof.
  unfold isAnimated. destruct (mFrames self); cbn; split; congruence.
Qed.

(** What one call of [advanceAnimation] leaves, for an animated tile. *)
Lemma advanceAnimation_unfold self ms :
  isAnimated self = true ->
  let unused := mUnusedTime self + ms in
  let next := advanceFrames (Z.to_nat unused) (mFrames self)
                (mCurrentFrameIndex self) unused in
  let self' := withAnimationState self (fst next) (snd next) in
  advanceAnimation self ms =
    (negb (sameTileId (visibleTileId self) (visibleTileId self')), self').
Proof.
  intros Hanim. unfold advanceAnimation. rewrite Hanim. cbv zeta.
  destruct (advanceFrames _ _ _ _) as [index' unused']. reflexivity.
Qed.

Lemma advanceAnimation_frames_kept self ms :
  mFrames (snd (advanceAnimation self ms)) = mFrames self.
Proof.
  unfold advanceAnimation. destruct (isAnimated self); [| reflexivity].
  destruct (advanceFrames _ _ _ _) as [index' unused']. reflexivity.
Qed.

Lemma advanceAnimation_valid self ms :
  validFrameIndex self -> validFrameIndex (snd (advanceAnimation self ms)).
Proof.
  intros Hvalid. unfold validFrameIndex. rewrite advanceAnimation_frames_kept.
  unfold advanceAnimation. destruct (isAnimated self); [| exact Hvalid].
  pose proof (advanceFrames_index (Z.to_nat (mUnusedTime self + ms))
                (mFrames self) (mCurrentFrameIndex self)
                (mUnusedTime self + ms) Hvalid) as H.
  destruct (advanceFrames _ _ _ _) as [index' unused']. exact H.
Qed.

(** ** The terrain corner codec *)

Example makeTerrain_1_2_3_4 : makeTerrain 1 2 3 4 = 0x01020304.
Proof. reflexivity. Qed.

Example makeTerrain_masks : makeTerrain 255 (-1) 256 300 = 0xFFFF002C.
Proof. reflexivity. Qed.

Example setTerrainCorner_unset : setTerrainCorner 0x01020304 0 (-1) = Some 0xFF020304.
Proof. reflexivity. Qed.

Example setTerrainCorner_low_byte : setTerrainCorner 0x01020304 1 511 = Some 0x01FF0304.
Proof. reflexivity. Qed.

Example setTerrainCorner_corner_4 : setTerrainCorner 0x01020304 4 1 = None.
Proof. reflexivity. Qed.

Lemma makeTerrain1_all_corners id : makeTerrain1 id = makeTerrain id id id id.
Proof. reflexivity. Qed.

(** C4: for all integers, the four-argument [makeTerrain] is
    [(topLeft<<24)|(topRight<<16)|(bottomLeft<<8)|bottomRight] with each
    argument masked to its low 8 bits, the 32-bit conversions changing
    nothing: a 32-bit word whose bytes are, from the most significant to
    the least, top-left, top-right, bottom-left and bottom-right. *)
Theorem makeTerrain_packs topLeft topRight bottomLeft bottomRight :
  let w := makeTerrain topLeft topRight bottomLeft bottomRight in
  w = Z.lor (Z.lor (Z.lor (Z.shiftl (Z.land topLeft 255) 24)
                          (Z.shiftl (Z.land topRight 255) 16))
                   (Z.shiftl (Z.land bottomLeft 255) 8))
            (Z.land bottomRight 255) /\
  0 <= w < 2 ^ 32 /\
  cornerByte w 0 = topLeft mod 256 /\
  cornerByte w 1 = topRight mod 256 /\
  cornerByte w 2 = bottomLeft mod 256 /\
  cornerByte w 3 = bottomRight mod 256.
Proof.
  intros w. split; [apply makeTerrain_unwrapped |].
  split; [apply to_unsigned_range |].
  apply cornerByte_makeTerrain.
Qed.

(** C3: for a corner in 0..3, [cornerTerrainId] returns -1 when the
    packed byte of the corner is 0xFF and the byte itself, a value in
    0..254, otherwise; the result is always in -1..254. *)
Theorem cornerTerrainId_decodes self corner :
  0 <= corner <= 3 ->
  exists r,
    cornerTerrainId self corner = Some r /\
    (cornerByte (terrain self) corner = 255 -> r = -1) /\
    (cornerByte (terrain self) corner <> 255 ->
       r = cornerByte (terrain self) corner /\ 0 <= r <= 254) /\
    -1 <= r <= 254.
Proof.
  intros Hc. rewrite cornerTerrainId_byte by assumption.
  pose proof (cornerByte_range (terrain self) corner) as Hb.
  eexists; split; [reflexivity |].
  destruct (Z.eqb_spec (cornerByte (terrain self) corner) 255); lia.
Qed.

Lemma cornerTerrainId_decodes_witness :
  exists r,
    cornerTerrainId sampleTile 2 = Some r /\
    (cornerByte (terrain sampleTile) 2 = 255 -> r = -1) /\
    (cornerByte (terrain sampleTile) 2 <> 255 ->
       r = cornerByte (terrain sampleTile) 2 /\ 0 <= r <= 254) /\
    -1 <= r <= 254.
Proof. apply (cornerTerrainId_decodes sampleTile 2). lia. Defined.

(** C1: corner values in 0..254 packed by [makeTerrain] are read back by
    [cornerTerrainId], corner by corner: 0 is the top-left value, 1 the
    top-right, 2 the bottom-left and 3 the bottom-right. *)
Theorem makeTerrain_cornerTerrainId self topLeft topRight bottomLeft bottomRight :
  0 <= topLeft <= 254 -> 0 <= topRight <= 254 ->
  0 <= bottomLeft <= 254 -> 0 <= bottomRight <= 254 ->
  terrain self = makeTerrain topLeft topRight bottomLeft bottomRight ->
  cornerTerrainId self 0 = Some topLeft /\
  cornerTerrainId self 1 = Some topRight /\
  cornerTerrainId self 2 = Some bottomLeft /\
  cornerTerrainId self 3 = Some bottomRight.
Proof.
  intros Htl Htr Hbl Hbr Hw.
  destruct (cornerByte_makeTerrain topLeft topRight bottomLeft bottomRight)
    as (H0 & H1 & H2 & H3).
  rewrite !cornerTerrainId_byte, Hw, H0, H1, H2, H3 by lia.
  rewrite !Z.mod_small by lia.
  repeat split; f_equal;
    match goal with |- (if ?x =? 255 then _ else _) = _ =>
      destruct (Z.eqb_spec x 255); [lia | reflexivity] end.
Qed.

Lemma makeTerrain_cornerTerrainId_witness :
  let self := storeTerrain sampleTile (makeTerrain 0 17 254 3) in
  cornerTerrainId self 0 = Some 0 /\
  cornerTerrainId self 1 = Some 17 /\
  cornerTerrainId self 2 = Some 254 /\
  cornerTerrainId self 3 = Some 3.
Proof.
  apply (makeTerrain_cornerTerrainId
           (storeTerrain sampleTile (makeTerrain 0 17 254 3)) 0 17 254 3);
    [lia | lia | lia | lia | reflexivity].
Defined.

(** C2: for a corner in 0..3 and any terrain id, [setTerrainCorner]
    returns a word, and in it every other corner keeps its byte: decoding
    another corner of the result gives what decoding it in the given word
    gives. *)
Theorem setTerrainCorner_frame self corner terrainId :
  0 <= corner <= 3 ->
  exists w',
    setTerrainCorner (terrain self) corner terrainId = Some w' /\
    forall self' corner',
      terrain self' = w' ->
      0 <= corner' <= 3 -> corner' <> corner ->
      cornerByte w' corner' = cornerByte (terrain self) corner' /\
      cornerTerrainId self' corner' = cornerTerrainId self corner'.
Proof.
  intros Hc. rewrite setTerrainCorner_defined by assumption.
  eexists; split; [reflexivity |].
  intros self' corner' Hw Hc' Hne.
  assert (Hbyte : cornerByte (terrain self') corner'
                  = cornerByte (terrain self) corner')
    by (rewrite Hw; now apply cornerByte_cornerWritten_other).
  split; [now rewrite <- Hw |].
  now rewrite !cornerTerrainId_byte, Hbyte by assumption.
Qed.

Lemma setTerrainCorner_frame_witness :
  exists w',
    setTerrainCorner (terrain sampleTile) 1 5 = Some w' /\
    forall self' corner',
      terrain self' = w' ->
      0 <= corner' <= 3 -> corner' <> 1 ->
      cornerByte w' corner' = cornerByte (terrain sampleTile) corner' /\
      cornerTerrainId self' corner' = cornerTerrainId sampleTile corner'.
Proof. apply (setTerrainCorner_frame sampleTile 1 5). lia. Defined.

(** The byte [setTerrainCorner] writes is the low byte of the terrain
    id. *)
Lemma setTerrainCorner_written terrain corner terrainId :
  0 <= corner <= 3 ->
  exists w',
    setTerrainCorner terrain corner terrainId = Some w' /\
    cornerByte w' corner = terrainId mod 256.
Proof.
  intros Hc. rewrite setTerrainCorner_defined by assumption.
  eexists; split; [reflexivity |].
  now apply cornerByte_cornerWritten_same.
Qed.

Section SetCornerTerrainId.

(** [Tile::setTerrain] (tile.cpp), known here by what the accessor
    [terrain] returns after it. *)
Variable setTerrain : Tile -> Z -> Tile.
Hypothesis terrain_setTerrain :
  forall self w, terrain (setTerrain self w) = w.

(** C10: for a corner in 0..3 and a terrain id in -1..254, the unset
    value -1 included, [setCornerTerrainId] followed by [cornerTerrainId]
    on the same corner returns the terrain id. *)
Theorem setCornerTerrainId_cornerTerrainId self corner terrainId :
  0 <= corner <= 3 -> -1 <= terrainId <= 254 ->
  exists self',
    setCornerTerrainId setTerrain self corner terrainId = Some self' /\
    cornerTerrainId self' corner = Some terrainId.
Proof.
  intros Hc Hid. unfold setCornerTerrainId.
  destruct (setTerrainCorner_written (mTerrain self) corner terrainId Hc)
    as (w' & Hset & Hbyte).
  rewrite Hset. eexists; split; [reflexivity |].
  rewrite cornerTerrainId_byte, terrain_setTerrain, Hbyte by assumption.
  f_equal.
  destruct (Z.eq_dec terrainId (-1)) as [-> | Hne]; [reflexivity |].
  rewrite Z.mod_small by lia.
  destruct (Z.eqb_spec terrainId 255); [lia | reflexivity].
Qed.

End SetCornerTerrainId.

Lemma setCornerTerrainId_cornerTerrainId_witness :
  exists self',
    setCornerTerrainId storeTerrain sampleTile 2 (-1) = Some self' /\
    cornerTerrainId self' 2 = Some (-1).
Proof.
  apply (setCornerTerrainId_cornerTerrainId storeTerrain
           (fun self w => eq_refl) sampleTile 2 (-1)); lia.
Defined.

(** ** Image and frames *)

(** C9: after [setImage], [imageStatus] is [LoadingError] for a null
    pixmap and [LoadingReady] for any other; no other status is left. *)
Theorem setImage_imageStatus self image :
  (isNull image = true -> imageStatus (setImage self image) = LoadingError) /\
  (isNull image = false -> imageStatus (setImage self image) = LoadingReady) /\
  (imageStatus (setImage self image) = LoadingError \/
   imageStatus (setImage self image) = LoadingReady).
Proof.
  unfold imageStatus, setImage; cbn [mImageStatus].
  destruct (isNull image); repeat split; auto; discriminate.
Qed.

(** C5: [isAnimated] is false exactly when the frame sequence is empty
    and true exactly when it is not. *)
Theorem isAnimated_iff_frames self :
  (isAnimated self = false <-> frames self = []) /\
  (isAnimated self = true <-> frames self <> []).
Proof.
  unfold isAnimated, frames.
  destruct (mFrames self); cbn; repeat split; congruence.
Qed.

(** ** Animation state *)

Example advanceAnimation_sample :
  advanceAnimation sampleTile 300 = (true, withAnimationState sampleTile 0 70).
Proof. reflexivity. Qed.

Example advanceAnimation_endless_frame :
  advanceAnimation stillTile 1000
  = (false, withAnimationState stillTile 0 1000).
Proof. reflexivity. Qed.

Lemma advanceFrames_single fuel : forall frames index unused,
  length frames = 1%nat ->
  fst (advanceFrames fuel frames index unused) = index.
Proof.
  induction fuel as [| fuel IH]; intros frames index unused Hone;
    cbn [advanceFrames]; [reflexivity |].
  destruct (frameAt frames index) as [frame |] eqn:Hat; [| reflexivity].
  destruct ((0 <? duration frame) && (duration frame <? unused));
    [| reflexivity].
  apply frameAt_in_range in Hat.
  rewrite IH, Hone by assumption.
  rewrite Hone in Hat. change (Z.of_nat 1) with 1 in *.
  rewrite Z.mod_1_r. lia.
Qed.

Lemma advanceAnimation_single self ms :
  length (mFrames self) = 1%nat ->
  mCurrentFrameIndex (snd (advanceAnimation self ms)) = mCurrentFrameIndex self /\
  fst (advanceAnimation self ms) = false.
Proof.
  intros Hone.
  assert (Hanim : isAnimated self = true)
    by (apply isAnimated_frames; destruct (mFrames self); [discriminate | congruence]).
  rewrite (advanceAnimation_unfold self ms Hanim); cbn [fst snd].
  unfold visibleTileId; cbn [withAnimationState mFrames mCurrentFrameIndex].
  rewrite advanceFrames_single by assumption.
  split; [reflexivity |].
  apply negb_false_iff, sameTileId_true. reflexivity.
Qed.

Lemma advance_single_run elapsed : forall self,
  length (mFrames self) = 1%nat ->
  mFrames (applyOps self (map OpAdvanceAnimation elapsed)) = mFrames self /\
  mCurrentFrameIndex (applyOps self (map OpAdvanceAnimation elapsed))
  = mCurrentFrameIndex self.
Proof.
  induction elapsed as [| ms elapsed IH]; intros self Hone;
    [split; reflexivity |].
  cbn [map applyOps fold_left applyOp].
  pose proof (advanceAnimation_frames_kept self ms) as Hkept.
  destruct (advanceAnimation_single self ms Hone) as [Hidx _].
  destruct (IH (snd (advanceAnimation self ms))) as [Hf Hi];
    [now rewrite Hkept |].
  unfold applyOps in Hf, Hi. rewrite Hf, Hi. now split.
Qed.

Lemma frameAt_nil index : frameAt [] index = None.
Proof.
  unfold frameAt. destruct (index <? 0); [reflexivity |].
  now destruct (Z.to_nat index).
Qed.

Lemma visibleTileId_restarted self :
  visibleTileId (withAnimationState self 0 0) =
    match mFrames self with
    | first :: _ => Some (tileId first)
    | [] => None
    end.
Proof.
  unfold visibleTileId, frameAt; cbn.
  now destruct (mFrames self).
Qed.

(** C6: after [resetAnimation] the current frame index is 0 and the
    unused time is 0, the frames and the rest of the tile being kept.
    The call returns true exactly when the tile id on display is not the
    one displayed before: the display after the call is the tile of the
    first frame; with a current frame before the call, the result is
    true exactly when that frame and the first frame name different
    tiles; it is false on a tile without frames and on a tile already at
    its first frame; and a second call reports no change and changes
    nothing. *)
Theorem resetAnimation_restarts self :
  let changed := fst (resetAnimation self) in
  let self' := snd (resetAnimation self) in
  currentFrameIndex self' = 0 /\
  mUnusedTime self' = 0 /\
  frames self' = frames self /\
  (terrain self' = terrain self /\ image self' = image self /\
   imageStatus self' = imageStatus self /\ mId self' = mId self) /\
  (changed = true <-> visibleTileId self' <> visibleTileId self) /\
  visibleTileId self' =
    match frames self with
    | first :: _ => Some (tileId first)
    | [] => None
    end /\
  (forall first rest current,
     frames self = first :: rest ->
     frameAt (frames self) (currentFrameIndex self) = Some current ->
     (changed = true <-> tileId current <> tileId first)) /\
  (frames self = [] -> changed = false) /\
  (currentFrameIndex self = 0 -> changed = false) /\
  resetAnimation self' = (false, self').
Proof.
  cbv zeta. unfold frames, currentFrameIndex, terrain, image, imageStatus.
  unfold resetAnimation; cbn [fst snd].
  rewrite visibleTileId_restarted.
  split; [reflexivity |]. split; [reflexivity |]. split; [reflexivity |].
  split; [repeat split |]. split; [apply changed_iff |].
  split; [reflexivity |]. split; [| split; [| split]].
  - intros first rest current Hframes Hat.
    unfold visibleTileId. rewrite Hat, Hframes. cbn [sameTileId].
    rewrite negb_true_iff, Z.eqb_neq. reflexivity.
  - intros Hnil. unfold visibleTileId. rewrite Hnil, frameAt_nil.
    reflexivity.
  - intros Hzero. unfold visibleTileId. rewrite Hzero.
    unfold frameAt; cbn.
    destruct (mFrames self) as [| first rest]; cbn [sameTileId];
      [reflexivity |].
    now rewrite Z.eqb_refl.
  - rewrite visibleTileId_restarted.
    cbn [withAnimationState mFrames mId mImage mImageStatus mTerrain].
    f_equal. apply negb_false_iff, sameTileId_true. reflexivity.
Qed.

Lemma resetAnimation_restarts_witness :
  fst (resetAnimation sampleTile) = true /\
  currentFrameIndex (snd (resetAnimation sampleTile)) = 0 /\
  visibleTileId (snd (resetAnimation sampleTile)) = Some 7.
Proof.
  pose proof (resetAnimation_restarts sampleTile)
    as (Hindex & _ & _ & _ & _ & Hshown & Hflag & _).
  split; [| split; [exact Hindex | exact Hshown]].
  apply (Hflag (mkFrame 7 100) [mkFrame 8 50; mkFrame 9 200] (mkFrame 8 50));
    [reflexivity | reflexivity | discriminate].
Defined.

(** C7: on an animated tile, [advanceAnimation ms] adds [ms] to the
    unused time and lets frames run out one after the other, each taking
    its duration off the unused time and handing over to the next frame,
    the first one after the last, until the current frame cannot run out
    any more; a valid index stays valid; the call returns true exactly
    when the tile id on display changed.  On a sequence of one frame,
    whatever its duration, no call and no run of calls changes the
    current frame, and a frame of non-positive duration only gathers the
    time. *)
Theorem advanceAnimation_elapses self ms :
  isAnimated self = true ->
  let changed := fst (advanceAnimation self ms) in
  let self' := snd (advanceAnimation self ms) in
  frames self' = frames self /\
  framesElapse (frames self)
    (currentFrameIndex self, mUnusedTime self + ms)
    (currentFrameIndex self', mUnusedTime self') /\
  (forall s, ~ frameElapses (frames self)
                 (currentFrameIndex self', mUnusedTime self') s) /\
  (validFrameIndex self -> validFrameIndex self') /\
  (changed = true <-> visibleTileId self' <> visibleTileId self) /\
  (forall frame, frameAt (frames self) (currentFrameIndex self) = Some frame ->
     duration frame <= 0 ->
     currentFrameIndex self' = currentFrameIndex self /\
     mUnusedTime self' = mUnusedTime self + ms /\ changed = false) /\
  (forall frame, frames self = [frame] ->
     changed = false /\
     forall elapsed,
       currentFrameIndex (applyOps self (map OpAdvanceAnimation elapsed))
       = currentFrameIndex self /\
       visibleTileId (applyOps self (map OpAdvanceAnimation elapsed))
       = visibleTileId self).
Proof.
  intros Hanim. cbv zeta. unfold frames, currentFrameIndex.
  split; [apply advanceAnimation_frames_kept |].
  rewrite (advanceAnimation_unfold self ms Hanim); cbn [fst snd].
  cbn [withAnimationState mFrames mCurrentFrameIndex mUnusedTime].
  rewrite <- surjective_pairing.
  split; [apply advanceFrames_elapse |].
  split; [apply advanceFrames_exhaustive; lia |].
  split; [intros Hvalid; now apply advanceFrames_index |].
  split; [apply changed_iff |].
  split.
  - intros frame Hat Hdur.
    unfold visibleTileId;
      cbn [withAnimationState mFrames mCurrentFrameIndex mUnusedTime].
    rewrite (advanceFrames_endless _ _ _ _ frame Hat Hdur); cbn [fst snd].
    repeat split. apply negb_false_iff, sameTileId_true. reflexivity.
  - intros frame Hone.
    assert (Hlen : length (mFrames self) = 1%nat) by now rewrite Hone.
    split.
    + pose proof (advanceAnimation_single self ms Hlen) as [_ Hflag].
      rewrite (advanceAnimation_unfold self ms Hanim) in Hflag. exact Hflag.
    + intros elapsed.
      destruct (advance_single_run elapsed self Hlen) as [Hf Hi].
      unfold visibleTileId. rewrite Hf, Hi. now split.
Qed.

Lemma advanceAnimation_elapses_witness :
  framesElapse sampleFrames (1, 320) (0, 70) /\
  fst (advanceAnimation sampleTile 300) = true.
Proof.
  pose proof (advanceAnimation_elapses sampleTile 300 eq_refl)
    as (_ & Hrun & _ & _ & Hchanged & _).
  split; [exact Hrun |].
  apply Hchanged. discriminate.
Defined.

(** * Further properties of the terrain codec *)

(** ** Words written corner after corner *)

Lemma testbit_above_32 w i :
  0 <= w < 2 ^ 32 -> 32 <= i -> Z.testbit w i = false.
Proof.
  intros Hw Hi.
  rewrite <- (Z.mod_small w (2 ^ 32)) by lia.
  apply Z.mod_pow2_bits_high. lia.
Qed.

Lemma cornerWritten_range terrain terrainId n :
  0 <= n -> 0 <= cornerWritten terrain terrainId n < 2 ^ 32.
Proof.
  intros Hn.
  assert (H : cornerWritten terrain terrainId n
              = to_unsigned (cornerWritten terrain terrainId n)).
  { apply Z.bits_inj'; intros i Hi.
    rewrite testbit_to_unsigned, testbit_cornerWritten by lia.
    split_comparisons. }
  rewrite H. apply to_unsigned_range.
Qed.

Lemma cornerWritten_last_wins terrain first second n :
  0 <= n ->
  cornerWritten (cornerWritten terrain first n) second n
  = cornerWritten terrain second n.
Proof.
  intros Hn. apply Z.bits_inj'; intros i Hi.
  rewrite !testbit_cornerWritten by lia.
  split_comparisons.
Qed.

Lemma cornerWritten_commute terrain v1 v2 n m :
  0 <= n -> 0 <= m -> n + 8 <= m \/ m + 8 <= n ->
  cornerWritten (cornerWritten terrain v1 n) v2 m
  = cornerWritten (cornerWritten terrain v2 m) v1 n.
Proof.
  intros Hn Hm Hfar. apply Z.bits_inj'; intros i Hi.
  rewrite !testbit_cornerWritten by lia.
  split_comparisons.
Qed.

Lemma cornerWritten_low_byte terrain terrainId n :
  0 <= n ->
  cornerWritten terrain (terrainId mod 256) n
  = cornerWritten terrain terrainId n.
Proof.
  intros Hn. apply Z.bits_inj'; intros i Hi.
  rewrite !testbit_cornerWritten by lia.
  change 256 with (2 ^ 8). rewrite Z.testbit_mod_pow2 by lia.
  split_comparisons.
Qed.

Lemma cornerWritten_four terrain topLeft topRight bottomLeft bottomRight :
  cornerWritten
    (cornerWritten
       (cornerWritten (cornerWritten terrain topLeft 24) topRight 16)
       bottomLeft 8)
    bottomRight 0
  = makeTerrain topLeft topRight bottomLeft bottomRight.
Proof.
  apply Z.bits_inj'; intros i Hi.
  rewrite !testbit_cornerWritten, testbit_makeTerrain by lia.
  split_comparisons; f_equal; lia.
Qed.

Lemma testbit_cornerByte terrain corner j :
  0 <= corner <= 3 -> 0 <= j ->
  Z.testbit (cornerByte terrain corner) j
  = (j <? 8) && Z.testbit terrain (j + (3 - corner) * 8).
Proof.
  intros Hc Hj. unfold cornerByte. change 256 with (2 ^ 8).
  rewrite Z.testbit_mod_pow2, Z.div_pow2_bits by lia. reflexivity.
Qed.

Lemma cornerWritten_own_byte terrain corner :
  0 <= terrain < 2 ^ 32 -> 0 <= corner <= 3 ->
  cornerWritten terrain (cornerByte terrain corner) ((3 - corner) * 8)
  = terrain.
Proof.
  intros Hw Hc. apply Z.bits_inj'; intros i Hi.
  rewrite testbit_cornerWritten by lia.
  destruct (Z.ltb_spec i 32) as [Hlt | Hge].
  - destruct (Z.leb_spec ((3 - corner) * 8) i) as [Hlo | Hlo];
      destruct (Z.ltb_spec i ((3 - corner) * 8 + 8)) as [Hhi | Hhi];
      cbn [andb]; try reflexivity.
    rewrite testbit_cornerByte by lia.
    replace (i - (3 - corner) * 8 + (3 - corner) * 8) with i by lia.
    destruct (Z.ltb_spec (i - (3 - corner) * 8) 8); [reflexivity | lia].
  - rewrite !andb_false_r; cbn [andb].
    symmetry. now apply testbit_above_32.
Qed.

(** The value [cornerTerrainId] reports for a byte has that byte as its
    low byte. *)
Lemma decoded_low_byte b :
  0 <= b <= 255 -> (if b =? 255 then -1 else b) mod 256 = b.
Proof.
  intros Hb. destruct (Z.eqb_spec b 255) as [-> | Hne]; [reflexivity |].
  apply Z.mod_small. lia.
Qed.

Lemma cornerWritten_decoded terrain corner :
  0 <= terrain < 2 ^ 32 -> 0 <= corner <= 3 ->
  cornerWritten terrain
    (if cornerByte terrain corner =? 255 then -1 else cornerByte terrain corner)
    ((3 - corner) * 8)
  = terrain.
Proof.
  intros Hw Hc.
  rewrite <- cornerWritten_low_byte by lia.
  rewrite decoded_low_byte by apply cornerByte_range.
  now apply cornerWritten_own_byte.
Qed.

Lemma corner_cases corner :
  0 <= corner <= 3 -> corner = 0 \/ corner = 1 \/ corner = 2 \/ corner = 3.
Proof. lia. Qed.

Lemma makeTerrain_low_bytes a b c d :
  makeTerrain a b c d = makeTerrain (a mod 256) (b mod 256) (c mod 256) (d mod 256).
Proof.
  unfold makeTerrain. rewrite !land_255, !Z.mod_mod by lia. reflexivity.
Qed.

(** A 32-bit word packed again from the ids read at its four corners
    (written as [cornerTerrainId_byte] gives them). *)
Lemma makeTerrain_of_decoded w :
  0 <= w < 2 ^ 32 ->
  makeTerrain
    (if cornerByte w 0 =? 255 then -1 else cornerByte w 0)
    (if cornerByte w 1 =? 255 then -1 else cornerByte w 1)
    (if cornerByte w 2 =? 255 then -1 else cornerByte w 2)
    (if cornerByte w 3 =? 255 then -1 else cornerByte w 3)
  = w.
Proof.
  intros Hw.
  rewrite <- (cornerWritten_four w).
  pose proof (cornerWritten_decoded w 0 Hw ltac:(lia)) as E0.
  pose proof (cornerWritten_decoded w 1 Hw ltac:(lia)) as E1.
  pose proof (cornerWritten_decoded w 2 Hw ltac:(lia)) as E2.
  pose proof (cornerWritten_decoded w 3 Hw ltac:(lia)) as E3.
  change ((3 - 0) * 8) with 24 in E0. change ((3 - 1) * 8) with 16 in E1.
  change ((3 - 2) * 8) with 8 in E2. change ((3 - 3) * 8) with 0 in E3.
  now rewrite E0, E1, E2, E3.
Qed.

Lemma cornerByte_makeTerrain1 id corner :
  0 <= corner <= 3 -> cornerByte (makeTerrain1 id) corner = id mod 256.
Proof.
  intros Hc. rewrite makeTerrain1_all_corners.
  destruct (cornerByte_makeTerrain id id id id) as (H0 & H1 & H2 & H3).
  destruct (corner_cases corner Hc) as [-> | [-> | [-> | ->]]]; assumption.
Qed.

(** ** makeTerrain *)

(** X1: every corner of the word [makeTerrain(id)] decodes to the low
    byte of [id], the byte 0xFF being reported as -1. *)
Theorem makeTerrain1_cornerTerrainId self id corner :
  0 <= corner <= 3 ->
  terrain self = makeTerrain1 id ->
  cornerTerrainId self corner
  = Some (if id mod 256 =? 255 then -1 else id mod 256).
Proof.
  intros Hc Hw.
  rewrite cornerTerrainId_byte, Hw by assumption.
  now rewrite cornerByte_makeTerrain1 by assumption.
Qed.

Lemma makeTerrain1_cornerTerrainId_witness :
  cornerTerrainId (storeTerrain sampleTile (makeTerrain1 (-1))) 2 = Some (-1).
Proof.
  apply (makeTerrain1_cornerTerrainId
           (storeTerrain sampleTile (makeTerrain1 (-1))) (-1) 2);
    [lia | reflexivity].
Defined.

(** X2: whatever integers [makeTerrain] is given, each corner decodes to
    the low byte of its argument, with 0xFF reported as -1; so -1 in a
    corner is read back as -1. *)
Theorem makeTerrain_decodes self topLeft topRight bottomLeft bottomRight :
  terrain self = makeTerrain topLeft topRight bottomLeft bottomRight ->
  let decoded v := if v mod 256 =? 255 then -1 else v mod 256 in
  cornerTerrainId self 0 = Some (decoded topLeft) /\
  cornerTerrainId self 1 = Some (decoded topRight) /\
  cornerTerrainId self 2 = Some (decoded bottomLeft) /\
  cornerTerrainId self 3 = Some (decoded bottomRight).
Proof.
  intros Hw decoded. unfold decoded.
  destruct (cornerByte_makeTerrain topLeft topRight bottomLeft bottomRight)
    as (H0 & H1 & H2 & H3).
  rewrite !cornerTerrainId_byte, Hw, H0, H1, H2, H3 by lia.
  repeat split.
Qed.

Lemma makeTerrain_decodes_witness :
  let self := storeTerrain sampleTile (makeTerrain (-1) 255 256 7) in
  cornerTerrainId self 0 = Some (-1) /\
  cornerTerrainId self 1 = Some (-1) /\
  cornerTerrainId self 2 = Some 0 /\
  cornerTerrainId self 3 = Some 7.
Proof.
  apply (makeTerrain_decodes
           (storeTerrain sampleTile (makeTerrain (-1) 255 256 7))
           (-1) 255 256 7 eq_refl).
Defined.

(** X3: two calls of [makeTerrain] give the same word exactly when
    their arguments agree corner by corner modulo 256. *)
Theorem makeTerrain_eq_iff a b c d a' b' c' d' :
  makeTerrain a b c d = makeTerrain a' b' c' d' <->
  a mod 256 = a' mod 256 /\ b mod 256 = b' mod 256 /\
  c mod 256 = c' mod 256 /\ d mod 256 = d' mod 256.
Proof.
  split.
  - intros Heq.
    destruct (cornerByte_makeTerrain a b c d) as (H0 & H1 & H2 & H3).
    destruct (cornerByte_makeTerrain a' b' c' d') as (H0' & H1' & H2' & H3').
    cbv zeta in *. rewrite Heq in H0, H1, H2, H3.
    repeat split; congruence.
  - intros (Ha & Hb & Hc & Hd).
    rewrite (makeTerrain_low_bytes a b c d), (makeTerrain_low_bytes a' b' c' d').
    now rewrite Ha, Hb, Hc, Hd.
Qed.

(** X13: a 32-bit terrain word is rebuilt by [makeTerrain] from the
    four ids [cornerTerrainId] reads in it. *)
Theorem cornerTerrainId_makeTerrain self :
  0 <= terrain self < 2 ^ 32 ->
  exists a b c d,
    cornerTerrainId self 0 = Some a /\
    cornerTerrainId self 1 = Some b /\
    cornerTerrainId self 2 = Some c /\
    cornerTerrainId self 3 = Some d /\
    makeTerrain a b c d = terrain self.
Proof.
  intros Hw.
  do 4 eexists.
  rewrite !cornerTerrainId_byte by lia.
  repeat (split; [reflexivity |]).
  now apply makeTerrain_of_decoded.
Qed.

Lemma cornerTerrainId_makeTerrain_witness :
  exists a b c d,
    cornerTerrainId sampleTile 0 = Some a /\
    cornerTerrainId sampleTile 1 = Some b /\
    cornerTerrainId sampleTile 2 = Some c /\
    cornerTerrainId sampleTile 3 = Some d /\
    makeTerrain a b c d = terrain sampleTile.
Proof.
  apply (cornerTerrainId_makeTerrain sampleTile). cbn. lia.
Defined.

(** X14: in a 32-bit terrain word every corner is unset, that is read
    as -1, exactly when the word is [makeTerrain(-1)], 0xFFFFFFFF. *)
Theorem all_corners_unset_iff self :
  0 <= terrain self < 2 ^ 32 ->
  (forall corner, 0 <= corner <= 3 -> cornerTerrainId self corner = Some (-1))
  <-> terrain self = makeTerrain1 (-1).
Proof.
  intros Hw. split.
  - intros Hall.
    pose proof (Hall 0 ltac:(lia)) as H0. pose proof (Hall 1 ltac:(lia)) as H1.
    pose proof (Hall 2 ltac:(lia)) as H2. pose proof (Hall 3 ltac:(lia)) as H3.
    rewrite cornerTerrainId_byte in H0, H1, H2, H3 by lia.
    injection H0 as H0. injection H1 as H1.
    injection H2 as H2. injection H3 as H3.
    rewrite <- (makeTerrain_of_decoded (terrain self) Hw).
    rewrite H0, H1, H2, H3. reflexivity.
  - intros Heq corner Hc.
    rewrite cornerTerrainId_byte, Heq by assumption.
    now rewrite cornerByte_makeTerrain1 by assumption.
Qed.

Lemma all_corners_unset_iff_witness :
  (forall corner, 0 <= corner <= 3 ->
     cornerTerrainId sampleTile corner = Some (-1))
  <-> terrain sampleTile = makeTerrain1 (-1).
Proof. apply (all_corners_unset_iff sampleTile). cbn. lia. Defined.

(** X15: two 32-bit terrain words in which [cornerTerrainId] reads the
    same id at each of the four corners are the same word. *)
Theorem terrain_determined_by_corners self other :
  0 <= terrain self < 2 ^ 32 -> 0 <= terrain other < 2 ^ 32 ->
  (forall corner, 0 <= corner <= 3 ->
     cornerTerrainId self corner = cornerTerrainId other corner) ->
  terrain self = terrain other.
Proof.
  intros Hw Hw' Hall.
  pose proof (Hall 0 ltac:(lia)) as H0. pose proof (Hall 1 ltac:(lia)) as H1.
  pose proof (Hall 2 ltac:(lia)) as H2. pose proof (Hall 3 ltac:(lia)) as H3.
  rewrite !cornerTerrainId_byte in H0, H1, H2, H3 by lia.
  injection H0 as H0. injection H1 as H1.
  injection H2 as H2. injection H3 as H3.
  rewrite <- (makeTerrain_of_decoded (terrain self) Hw).
  rewrite <- (makeTerrain_of_decoded (terrain other) Hw').
  now rewrite H0, H1, H2, H3.
Qed.

Lemma terrain_determined_by_corners_witness :
  terrain sampleTile = terrain (setImage sampleTile (mkPixmap true 0 0)).
Proof.
  apply (terrain_determined_by_corners sampleTile
           (setImage sampleTile (mkPixmap true 0 0)));
    [cbn; lia | cbn; lia | intros corner Hc; reflexivity].
Defined.

(** ** setTerrainCorner *)

(** X4: for a corner in 0..3, [setTerrainCorner] returns a word that
    fits 32 bits, whatever the terrain id, and the byte of the corner in
    it is the low byte of the terrain id. *)
Theorem setTerrainCorner_writes terrain corner terrainId :
  0 <= corner <= 3 ->
  exists w',
    setTerrainCorner terrain corner terrainId = Some w' /\
    0 <= w' < 2 ^ 32 /\
    cornerByte w' corner = terrainId mod 256.
Proof.
  intros Hc. rewrite setTerrainCorner_defined by assumption.
  eexists; split; [reflexivity |]. split.
  - apply cornerWritten_range. lia.
  - now apply cornerByte_cornerWritten_same.
Qed.

Lemma setTerrainCorner_writes_witness :
  exists w',
    setTerrainCorner 0x01020304 1 (-1) = Some w' /\
    0 <= w' < 2 ^ 32 /\
    cornerByte w' 1 = (-1) mod 256.
Proof. apply (setTerrainCorner_writes 0x01020304 1 (-1)). lia. Defined.

(** X6: writing a corner twice leaves what the second write alone
    leaves. *)
Theorem setTerrainCorner_last_wins terrain corner first second :
  0 <= corner <= 3 ->
  exists w1,
    setTerrainCorner terrain corner first = Some w1 /\
    setTerrainCorner w1 corner second
    = setTerrainCorner terrain corner second.
Proof.
  intros Hc. rewrite !setTerrainCorner_defined by assumption.
  eexists; split; [reflexivity |].
  rewrite setTerrainCorner_defined by assumption.
  f_equal. apply cornerWritten_last_wins. lia.
Qed.

Lemma setTerrainCorner_last_wins_witness :
  exists w1,
    setTerrainCorner 0x01020304 2 9 = Some w1 /\
    setTerrainCorner w1 2 (-1) = setTerrainCorner 0x01020304 2 (-1).
Proof. apply (setTerrainCorner_last_wins 0x01020304 2 9 (-1)). lia. Defined.

(** X7: writes to two different corners can be done in either order. *)
Theorem setTerrainCorner_commutes terrain c1 v1 c2 v2 :
  0 <= c1 <= 3 -> 0 <= c2 <= 3 -> c1 <> c2 ->
  exists w1 w2 w,
    setTerrainCorner terrain c1 v1 = Some w1 /\
    setTerrainCorner terrain c2 v2 = Some w2 /\
    setTerrainCorner w1 c2 v2 = Some w /\
    setTerrainCorner w2 c1 v1 = Some w.
Proof.
  intros H1 H2 Hne.
  exists (cornerWritten terrain v1 ((3 - c1) * 8)),
         (cornerWritten terrain v2 ((3 - c2) * 8)),
         (cornerWritten (cornerWritten terrain v1 ((3 - c1) * 8)) v2
            ((3 - c2) * 8)).
  rewrite !setTerrainCorner_defined by assumption.
  repeat split. f_equal. symmetry. apply cornerWritten_commute; lia.
Qed.

Lemma setTerrainCorner_commutes_witness :
  exists w1 w2 w,
    setTerrainCorner 0x01020304 0 7 = Some w1 /\
    setTerrainCorner 0x01020304 3 (-1) = Some w2 /\
    setTerrainCorner w1 3 (-1) = Some w /\
    setTerrainCorner w2 0 7 = Some w.
Proof.
  apply (setTerrainCorner_commutes 0x01020304 0 7 3 (-1)); lia.
Defined.

(** X8: writing back into a 32-bit word the id [cornerTerrainId] reads
    at a corner, -1 included, leaves the word as it is. *)
Theorem setTerrainCorner_cornerTerrainId self corner :
  0 <= terrain self < 2 ^ 32 -> 0 <= corner <= 3 ->
  exists r,
    cornerTerrainId self corner = Some r /\
    setTerrainCorner (terrain self) corner r = Some (terrain self).
Proof.
  intros Hw Hc.
  rewrite cornerTerrainId_byte by assumption.
  eexists; split; [reflexivity |].
  rewrite setTerrainCorner_defined by assumption.
  f_equal. now apply cornerWritten_decoded.
Qed.

Lemma setTerrainCorner_cornerTerrainId_witness :
  exists r,
    cornerTerrainId sampleTile 1 = Some r /\
    setTerrainCorner (terrain sampleTile) 1 r = Some (terrain sampleTile).
Proof.
  apply (setTerrainCorner_cornerTerrainId sampleTile 1); cbn; lia.
Defined.

(** X9: writing the four corners one after the other, into any word,
    builds the word [makeTerrain] packs from the four ids. *)
Theorem setTerrainCorner_four terrain topLeft topRight bottomLeft bottomRight :
  exists w0 w1 w2,
    setTerrainCorner terrain 0 topLeft = Some w0 /\
    setTerrainCorner w0 1 topRight = Some w1 /\
    setTerrainCorner w1 2 bottomLeft = Some w2 /\
    setTerrainCorner w2 3 bottomRight
    = Some (makeTerrain topLeft topRight bottomLeft bottomRight).
Proof.
  exists (cornerWritten terrain topLeft 24),
         (cornerWritten (cornerWritten terrain topLeft 24) topRight 16),
         (cornerWritten
            (cornerWritten (cornerWritten terrain topLeft 24) topRight 16)
            bottomLeft 8).
  rewrite !setTerrainCorner_defined by lia.
  repeat split. f_equal. apply cornerWritten_four.
Qed.

(** X10: two terrain ids written at a corner in 0..3 give the same word
    exactly when they agree modulo 256; 255 and -1 write the same. *)
Theorem setTerrainCorner_eq_iff terrain corner a b :
  0 <= corner <= 3 ->
  setTerrainCorner terrain corner a = setTerrainCorner terrain corner b
  <-> a mod 256 = b mod 256.
Proof.
  intros Hc. rewrite !setTerrainCorner_defined by assumption. split.
  - intros Heq.
    assert (Hw : cornerWritten terrain a ((3 - corner) * 8)
                 = cornerWritten terrain b ((3 - corner) * 8)) by congruence.
    rewrite <- (cornerByte_cornerWritten_same terrain a corner Hc),
            <- (cornerByte_cornerWritten_same terrain b corner Hc).
    now rewrite Hw.
  - intros Hmod. f_equal.
    rewrite <- (cornerWritten_low_byte terrain a),
            <- (cornerWritten_low_byte terrain b) by lia.
    now rewrite Hmod.
Qed.

Lemma setTerrainCorner_eq_iff_witness :
  setTerrainCorner 0x01020304 1 255 = setTerrainCorner 0x01020304 1 (-1)
  <-> 255 mod 256 = (-1) mod 256.
Proof. apply (setTerrainCorner_eq_iff 0x01020304 1 255 (-1)). lia. Defined.

(** ** setCornerTerrainId on a tile *)

Section SetCornerTerrainIdMore.

Variable setTerrain : Tile -> Z -> Tile.
Hypothesis terrain_setTerrain :
  forall self w, terrain (setTerrain self w) = w.

(** X5: for any terrain id, [cornerTerrainId] after
    [setCornerTerrainId] on the same corner returns the low byte of the
    id, and -1 when that byte is 0xFF: an id of 255, or one outside
    -1..254, is not read back. *)
Theorem setCornerTerrainId_reads_low_byte self corner terrainId :
  0 <= corner <= 3 ->
  exists self',
    setCornerTerrainId setTerrain self corner terrainId = Some self' /\
    cornerTerrainId self' corner
    = Some (if terrainId mod 256 =? 255 then -1 else terrainId mod 256).
Proof.
  intros Hc. unfold setCornerTerrainId.
  rewrite setTerrainCorner_defined by assumption.
  eexists; split; [reflexivity |].
  rewrite cornerTerrainId_byte, terrain_setTerrain by assumption.
  now rewrite cornerByte_cornerWritten_same by assumption.
Qed.

(** X12: [setCornerTerrainId] on one corner leaves what
    [cornerTerrainId] returns for every other corner. *)
Theorem setCornerTerrainId_other_corner self corner terrainId corner' :
  0 <= corner <= 3 -> 0 <= corner' <= 3 -> corner' <> corner ->
  exists self',
    setCornerTerrainId setTerrain self corner terrainId = Some self' /\
    cornerTerrainId self' corner' = cornerTerrainId self corner'.
Proof.
  intros Hc Hc' Hne. unfold setCornerTerrainId.
  rewrite setTerrainCorner_defined by assumption.
  eexists; split; [reflexivity |].
  rewrite !cornerTerrainId_byte, terrain_setTerrain by assumption.
  unfold terrain.
  now rewrite cornerByte_cornerWritten_other by assumption.
Qed.

End SetCornerTerrainIdMore.

Lemma setCornerTerrainId_reads_low_byte_witness :
  exists self',
    setCornerTerrainId storeTerrain sampleTile 0 255 = Some self' /\
    cornerTerrainId self' 0 = Some (-1).
Proof.
  apply (setCornerTerrainId_reads_low_byte storeTerrain
           (fun self w => eq_refl) sampleTile 0 255). lia.
Defined.

Lemma setCornerTerrainId_other_corner_witness :
  exists self',
    setCornerTerrainId storeTerrain sampleTile 0 5 = Some self' /\
    cornerTerrainId self' 3 = cornerTerrainId sampleTile 3.
Proof.
  apply (setCornerTerrainId_other_corner storeTerrain
           (fun self w => eq_refl) sampleTile 0 5 3); lia.
Defined.

(** ** Frame *)

(** X11: [Frame::operator==] holds exactly for two frames with the same
    tile id and the same duration, that is for equal frames. *)
Theorem Frame_eqb_eq a b : Frame_eqb a b = true <-> a = b.
Proof.
  unfold Frame_eqb. rewrite andb_true_iff, !Z.eqb_eq.
  destruct a as [ta da], b as [tb db]; cbn [tileId duration].
  split.
  - intros [-> ->]. reflexivity.
  - intros H. injection H as -> ->. split; reflexivity.
Qed.
